(** * splice_data_to_fasta.py: a shallow embedding and its properties

    The script reads a comma-separated text file given on the command
    line, turns every line into a two-line FASTA record and writes the
    concatenation of the records to [splice.data.fasta].

    The embedding follows [scripts/splice_data_to_fasta.py] statement by
    statement.  Python strings are [string]; the string methods the
    script calls are written out in [PyStr]; exceptions are a result
    type; the file system, the standard streams and the log of file
    operations are threaded through a state-and-exception monad.

    A file's [data] is its text as the text layer hands it to the script
    and takes it back (decoded, newlines already translated).  A path is
    the string the script passes to [open]; the file system is keyed by
    these strings.  Whether a file may be opened for reading or for
    writing, and whether a new file may be created in the working
    directory, is part of the environment. *)

From Stdlib Require Import Ascii.
From stdpp Require Import gmap strings list fin_maps.

(** ** Python string methods used by the script *)

Module PyStr.

Definition nl : ascii := "010"%char.
Definition tab : ascii := "009"%char.
Definition comma : ascii := ","%char.
Definition space : ascii := " "%char.

(** A one-character string. *)
Definition chr (c : ascii) : string := String c EmptyString.

(** [s.replace(old, new)] for a one-character [old], which is how the
    script calls it both times: every occurrence of [old], from left to
    right, is replaced by [new]. *)
Fixpoint replace (old : ascii) (new s : string) : string :=
  match s with
  | EmptyString => EmptyString
  | String c s' =>
      if Ascii.eqb c old then new +:+ replace old new s'
      else String c (replace old new s')
  end.

(** [s.split(sep)] for a one-character [sep]: the fields between the
    separators, empty fields included, so the result is never empty
    ([''.split(',') == ['']]). *)
Fixpoint split (sep : ascii) (s : string) : list string :=
  match s with
  | EmptyString => [EmptyString]
  | String c s' =>
      if Ascii.eqb c sep then EmptyString :: split sep s'
      else match split sep s' with
           | [] => [chr c]
           | fld :: flds => String c fld :: flds
           end
  end.

(** Iterating a text file: the text is cut after every newline, the
    newline stays with its line, and a last line without a newline is
    still a line.  The text is what the text layer delivers, that is
    after decoding and newline translation. *)
Fixpoint readlines (s : string) : list string :=
  match s with
  | EmptyString => []
  | String c s' =>
      if Ascii.eqb c nl then chr c :: readlines s'
      else match readlines s' with
           | [] => [chr c]
           | l :: ls => String c l :: ls
           end
  end.

(** Concatenation of a list of strings. *)
Definition concat (l : list string) : string :=
  foldr String.append EmptyString l.

(** The characters of a string, for statements about its contents. *)
Fixpoint chars (s : string) : list ascii :=
  match s with
  | EmptyString => []
  | String c s' => c :: chars s'
  end.

End PyStr.

Import PyStr.

(** ** Exceptions *)

Inductive exn : Type :=
| IndexError
| IOError (path : string).

Inductive result (A : Type) : Type :=
| Ok (a : A)
| Raise (e : exn).
Arguments Ok {A} a.
Arguments Raise {A} e.

#[global] Instance result_ret : MRet result := λ A a, Ok a.
#[global] Instance result_bind : MBind result := λ A B f m,
  match m with
  | Ok a => f a
  | Raise e => Raise e
  end.

(** [l[i]] on a list: [IndexError] when [i] is out of range. *)
Definition getitem {A : Type} (l : list A) (i : nat) : result A :=
  match l !! i with
  | Some a => Ok a
  | None => Raise IndexError
  end.

(** ** The body of the [for line in lines] loop *)

(** One iteration, from [content_sequence = '>'] to
    [content += content_sequence].  The names are the script's. *)
Definition loop_body (content line : string) : result string :=
  let content_sequence := ">" in
  let line := replace nl EmptyString line in
  let attributes_sequence := split comma line in
  class_sequence ← getitem attributes_sequence 0;
  field2 ← getitem attributes_sequence 2;
  let sequence := replace space EmptyString field2 in
  let content_sequence := content_sequence +:+ (class_sequence +:+ chr nl) in
  let content_sequence := content_sequence +:+ (sequence +:+ chr nl) in
  mret (content +:+ content_sequence).

(** The loop: the iterations in order, stopping at the first exception. *)
Fixpoint for_loop (lines : list string) (content : string) : result string :=
  match lines with
  | [] => Ok content
  | line :: lines' =>
      content' ← loop_body content line;
      for_loop lines' content'
  end.

(** The fragment one line contributes: the loop body run on an empty
    accumulator. *)
Definition fragment (line : string) : result string := loop_body EmptyString line.

(** The comma-separated fields of a line, as the loop body sees them
    (after the newline is removed). *)
Definition fields (line : string) : list string :=
  split comma (replace nl EmptyString line).

(** A line is well formed when it has at least three fields. *)
Definition well_formed (line : string) : Prop := 3 ≤ length (fields line).

#[global] Instance well_formed_dec line : Decision (well_formed line).
Proof. unfold well_formed. apply _. Defined.

(** The text of a record with header [f0] and sequence field [f2], as
    the loop body puts it together. *)
Definition record (f0 f2 : string) : string :=
  ">" +:+ f0 +:+ chr nl +:+ replace space EmptyString f2 +:+ chr nl.

(** The two lines of the record of a line: header and sequence. *)
Definition header_line (line : string) : string :=
  ">" +:+ default EmptyString (fields line !! 0) +:+ chr nl.
Definition sequence_line (line : string) : string :=
  replace space EmptyString (default EmptyString (fields line !! 2)) +:+ chr nl.

(** The record of a line. *)
Definition fasta_record (line : string) : string :=
  record (default EmptyString (fields line !! 0)) (default EmptyString (fields line !! 2)).

(** ** The process environment *)

(** A file: its text and whether the process may open it for reading
    and for writing.  A path that is not in the map does not exist. *)
Record file : Type := File { readable : bool; writable : bool; data : string }.

Inductive mode : Type := ModeR | ModeW.

(** The file operations a run performs, in order (attempts included). *)
Inductive io_event : Type :=
| EvOpen (path : string) (m : mode)
| EvRead (path : string)
| EvWrite (path : string) (text : string)
| EvClose (path : string).

(** The environment of a run.  [cwd_writable] says whether the process
    may create a file in the working directory. *)
Record world : Type := World {
  fs : gmap string file;
  stdout : string;
  stderr : string;
  io_log : list io_event;
  cwd_writable : bool
}.

Definition set_fs (g : gmap string file) (w : world) : world :=
  World g (stdout w) (stderr w) (io_log w) (cwd_writable w).
Definition put_stdout (s : string) (w : world) : world :=
  World (fs w) (stdout w +:+ s) (stderr w) (io_log w) (cwd_writable w).
Definition put_stderr (s : string) (w : world) : world :=
  World (fs w) (stdout w) (stderr w +:+ s) (io_log w) (cwd_writable w).
Definition log (e : io_event) (w : world) : world :=
  World (fs w) (stdout w) (stderr w) (io_log w ++ [e]) (cwd_writable w).

(** ** The monad of the script: state and exceptions *)

Definition M (A : Type) : Type := world → result A * world.

#[global] Instance M_ret : MRet M := λ A a w, (Ok a, w).
#[global] Instance M_bind : MBind M := λ A B f m w,
  match m w with
  | (Ok a, w') => f a w'
  | (Raise e, w') => (Raise e, w')
  end.

(** A computation that does not touch the environment. *)
Definition lift {A : Type} (r : result A) : M A := λ w, (r, w).

(** ** The built-ins the script calls *)

(** [print(s)]: [s] and a newline, on standard output. *)
Definition print (s : string) : M unit :=
  λ w, (Ok (), put_stdout (s +:+ chr nl) w).

(** An open file is named by its path. *)
Abbreviation handle := string (only parsing).

(** [open(path, mode)].  For reading, the file must exist and be
    readable.  For writing, a file that exists must be writable and is
    truncated, keeping its permissions; a file that does not exist is
    created, which the working directory must allow.  A refused open
    raises and leaves the file system as it was. *)
Definition open (path : string) (m : mode) : M handle :=
  λ w,
    let w := log (EvOpen path m) w in
    match m with
    | ModeR =>
        match fs w !! path with
        | Some fl => if readable fl then (Ok path, w) else (Raise (IOError path), w)
        | None => (Raise (IOError path), w)
        end
    | ModeW =>
        match fs w !! path with
        | Some fl =>
            if writable fl
            then (Ok path,
                  set_fs (<[path := File (readable fl) (writable fl) EmptyString]>
                            (fs w)) w)
            else (Raise (IOError path), w)
        | None =>
            if cwd_writable w
            then (Ok path, set_fs (<[path := File true true EmptyString]> (fs w)) w)
            else (Raise (IOError path), w)
        end
    end.

(** [tuple(h)]: the lines of the open file, in order. *)
Definition tuple (h : handle) : M (list string) :=
  λ w,
    match fs w !! h with
    | Some fl => (Ok (readlines (data fl)), log (EvRead h) w)
    | None => (Raise (IOError h), w)
    end.

(** [h.write(text)]: the text goes after what was written since the file
    was opened. *)
Definition write (h : handle) (text : string) : M unit :=
  λ w,
    let w := log (EvWrite h text) w in
    match fs w !! h with
    | Some fl =>
        (Ok (),
         set_fs (<[h := File (readable fl) (writable fl) (data fl +:+ text)]>
                   (fs w)) w)
    | None => (Raise (IOError h), w)
    end.

(** [h.close()]. *)
Definition close (h : handle) : M unit :=
  λ w, (Ok (), log (EvClose h) w).

(** ** The script *)

Definition dquote : ascii := "034"%char.

Definition output_name : string := "splice.data.fasta".

Definition usage1 : string := chr nl +:+ "Error: insufficient arguments." +:+ chr nl.
Definition usage2 : string :=
  "Command:" +:+ chr nl +:+ chr nl +:+ chr tab
  +:+ "splice_data_to_fasta.py <path_splice_data>".
Definition usage3 : string :=
  chr tab +:+ "Example: splice_data_to_fasta.py splice.data.txt".
Definition done_message : string :=
  chr nl +:+ "The " +:+ chr dquote +:+ "splice.data.fasta" +:+ chr dquote
  +:+ " file was generated." +:+ chr nl.

(** The [__main__] block; [argv] is [sys.argv], the script's name first. *)
Definition main (argv : list string) : M unit :=
  if negb (Nat.eqb (length argv) 2) then
    print usage1;;
    print usage2;;
    print usage3
  else
    let content := EmptyString in
    path ← lift (getitem argv 1);
    h ← open path ModeR;
    lines ← tuple h;
    content ← lift (for_loop lines content);
    f ← open output_name ModeW;
    write f content;;
    close f;;
    print done_message.

(** What the interpreter reports for an exception nobody caught. *)
Definition exn_name (e : exn) : string :=
  match e with
  | IndexError => "IndexError: list index out of range"
  | IOError path => "IOError: " +:+ path
  end.

Definition traceback (e : exn) : string :=
  "Traceback (most recent call last):" +:+ chr nl +:+ exn_name e +:+ chr nl.

(** A run of the process: the final environment and the exit status.
    An uncaught exception is reported on standard error and the status
    is 1; otherwise the status is 0. *)
Definition run (argv : list string) (w : world) : world * Z :=
  match main argv w with
  | (Ok _, w') => (w', 0%Z)
  | (Raise e, w') => (put_stderr (traceback e) w', 1%Z)
  end.

(** The exception a run ends with, if any. *)
Definition uncaught (argv : list string) (w : world) : option exn :=
  match main argv w with
  | (Ok _, _) => None
  | (Raise e, _) => Some e
  end.

Definition world0 (g : gmap string file) : world :=
  World g EmptyString EmptyString [] true.

Definition text_file (s : string) : file := File true true s.

(** What a run can read at a path: the text of the file there, when the
    file exists and is readable. *)
Definition can_read (w : world) (path : string) : option string :=
  match fs w !! path with
  | Some fl => if readable fl then Some (data fl) else None
  | None => None
  end.

(** Whether a run can open a path for writing: an existing file must be
    writable, a new one must be allowed by the working directory. *)
Definition can_write (w : world) (path : string) : bool :=
  match fs w !! path with
  | Some fl => writable fl
  | None => cwd_writable w
  end.

(** The file at a path once it was opened for writing and [text] was
    written: an existing file keeps its read permission, a new file is
    readable. *)
Definition written (w : world) (path text : string) : file :=
  File (match fs w !! path with
        | Some fl => readable fl
        | None => true
        end) true text.

(** The text stored at a path, readable or not. *)
Definition stored (w : world) (path : string) : option string :=
  data <$> fs w !! path.

(** The exit status of a run. *)
Definition status (argv : list string) (w : world) : Z := (run argv w).2.

(** The environment a run leaves. *)
Definition after (argv : list string) (w : world) : world := (run argv w).1.

(** Whether an event opens a file for writing or writes to one. *)
Definition is_write (e : io_event) : bool :=
  match e with
  | EvOpen _ ModeW | EvWrite _ _ => true
  | _ => false
  end.

(** The path an event is about. *)
Definition event_path (e : io_event) : string :=
  match e with
  | EvOpen path _ | EvRead path | EvWrite path _ | EvClose path => path
  end.

(** A sample input, and an environment that holds it next to an output
    file left by an earlier run. *)
Definition sample_text : string :=
  "N,HUMAN,CAGGTAAGT" +:+ chr nl +:+ "EI,HUMAN,AG GTG AGT" +:+ chr nl.

Definition short_text : string :=
  "N,HUMAN,CAGGTAAGT" +:+ chr nl +:+ "EI,HUMAN" +:+ chr nl.

Definition sample_world : world :=
  world0 {[ "splice.data.txt" := text_file sample_text;
            "short.txt" := text_file short_text;
            "empty.txt" := text_file EmptyString;
            "secret.txt" := File false true sample_text;
            output_name := text_file "stale" ]}.

Definition script : string := "splice_data_to_fasta.py".

(** An environment whose output file exists and is read-only, and one
    whose working directory does not allow a new file. *)
Definition locked_world : world :=
  world0 {[ "splice.data.txt" := text_file sample_text;
            "empty.txt" := text_file EmptyString;
            output_name := File true false "stale" ]}.

Definition closed_world : world :=
  World {[ "splice.data.txt" := text_file sample_text ]}
        EmptyString EmptyString [] false.

(** How often a character occurs in a string. *)
Definition occurrences (c : ascii) (s : string) : nat :=
  length (filter (λ x, x = c) (chars s)).

(** An input with a blank line between two records. *)
Definition blank_text : string :=
  ("N,HUMAN,CAGGTAAGT" +:+ chr nl) +:+ (chr nl +:+ "EI,HUMAN,AG GTG AGT").

Definition blank_world : world :=
  world0 {[ "blank.txt" := text_file blank_text ]}.

(** * Properties *)

(** ** Two runs of the definitions *)

Example fragment_EI :
  fragment "EI,HUMAN,AG CCG TGA" = Ok (">EI" +:+ chr nl +:+ "AGCCGTGA" +:+ chr nl).
Proof. reflexivity. Qed.

Example run_two_lines :
  let input := "N,HUMAN,CAGGTAAGT" +:+ chr nl +:+ "EI,HUMAN,AG GTG AGT" +:+ chr nl in
  let '(w, st) := run ["splice_data_to_fasta.py"; "splice.data.txt"]
                      (world0 {[ "splice.data.txt" := text_file input ]}) in
  st = 0%Z ∧
  data <$> fs w !! output_name
  = Some (">N" +:+ chr nl +:+ "CAGGTAAGT" +:+ chr nl +:+
          ">EI" +:+ chr nl +:+ "AGGTGAGT" +:+ chr nl).
Proof. vm_compute. split; reflexivity. Qed.

Example run_locked :
  let '(w, st) := run [script; "splice.data.txt"] locked_world in
  st = 1%Z ∧ fs w = fs locked_world.
Proof. vm_compute. split; reflexivity. Qed.

Example run_closed :
  let '(w, st) := run [script; "splice.data.txt"] closed_world in
  st = 1%Z ∧ fs w = fs closed_world.
Proof. vm_compute. split; reflexivity. Qed.

(** ** Strings *)

Section strings.
Implicit Types (s t : string) (c x : ascii).

Lemma app_cons c s t : String c s +:+ t = String c (s +:+ t).
Proof. reflexivity. Qed.

Lemma app_empty_l s : EmptyString +:+ s = s.
Proof. reflexivity. Qed.

Lemma app_empty_r s : s +:+ EmptyString = s.
Proof. induction s as [|c s IH]; [done | by rewrite app_cons, IH]. Qed.

Lemma app_assoc_s s t u : (s +:+ t) +:+ u = s +:+ (t +:+ u).
Proof. induction s as [|c s IH]; [done | by rewrite !app_cons, IH]. Qed.

Lemma chars_app s t : chars (s +:+ t) = chars s ++ chars t.
Proof. induction s as [|c s IH]; [done | rewrite app_cons; simpl; by rewrite IH]. Qed.

Lemma eqb_false_ne c x : Ascii.eqb c x = false ↔ c ≠ x.
Proof.
  destruct (Ascii.eqb_spec c x) as [->|Hne]; split; intros; congruence.
Qed.

(** Replacing a character by nothing keeps the other characters, in
    order, and nothing else. *)
Lemma chars_replace_empty x s :
  chars (replace x EmptyString s) = filter (λ c, c ≠ x) (chars s).
Proof.
  induction s as [|c s IH]; simpl; [done|].
  destruct (Ascii.eqb_spec c x) as [->|Hne].
  - rewrite filter_cons_False by (intros H; by apply H). by rewrite app_empty_l.
  - rewrite filter_cons_True by done. simpl. by rewrite IH.
Qed.

Lemma replace_empty_free x s : x ∉ chars (replace x EmptyString s).
Proof.
  rewrite chars_replace_empty. intros [H _]%list_elem_of_filter. by apply H.
Qed.

Lemma replace_empty_sub x c s : c ∈ chars (replace x EmptyString s) → c ∈ chars s.
Proof. rewrite chars_replace_empty. by intros [_ H]%list_elem_of_filter. Qed.

Lemma split_nonempty x s : split x s ≠ [].
Proof.
  destruct s as [|c s]; simpl; [done|].
  destruct (Ascii.eqb c x); [done|]. by destruct (split x s).
Qed.

(** Every field is made of characters of the string. *)
Lemma split_sub x s fld c : fld ∈ split x s → c ∈ chars fld → c ∈ chars s.
Proof.
  revert fld. induction s as [|a s IH]; simpl; intros fld Hf Hc.
  - apply list_elem_of_singleton in Hf as ->. done.
  - destruct (Ascii.eqb a x).
    + apply elem_of_cons in Hf as [->|Hf]; [by apply elem_of_nil in Hc|].
      right. by eapply IH.
    + destruct (split x s) as [|f0 fs0] eqn:E.
      * apply list_elem_of_singleton in Hf as ->. simpl in Hc.
        apply elem_of_cons in Hc as [->|Hc]; [left | by apply elem_of_nil in Hc].
      * apply elem_of_cons in Hf as [->|Hf].
        -- simpl in Hc. apply elem_of_cons in Hc as [->|Hc]; [left|].
           right. eapply IH; [left | done].
        -- right. eapply IH; [by right | done].
Qed.

(** Cutting a text that starts with a newline-free line. *)
Lemma readlines_line s t :
  nl ∉ chars s → readlines (s +:+ chr nl +:+ t) = (s +:+ chr nl) :: readlines t.
Proof.
  induction s as [|c s IH]; intros Hs.
  - by rewrite app_empty_l.
  - apply not_elem_of_cons in Hs as [Hc Hs].
    rewrite !app_cons. simpl.
    destruct (Ascii.eqb_spec c nl) as [->|_]; [done|].
    by rewrite IH.
Qed.

Lemma readlines_empty s : readlines s = [] ↔ s = EmptyString.
Proof.
  split; [|by intros ->].
  destruct s as [|c s]; simpl; [done|].
  destruct (Ascii.eqb c nl); [done|]. by destruct (readlines s).
Qed.

Lemma concat_cons s (l : list string) : concat (s :: l) = s +:+ concat l.
Proof. reflexivity. Qed.

(** The lines of a text, put together again, are the text. *)
Lemma concat_readlines s : concat (readlines s) = s.
Proof.
  induction s as [|c s IH]; simpl; [done|].
  destruct (Ascii.eqb c nl).
  - rewrite concat_cons, IH. reflexivity.
  - destruct (readlines s) as [|l ls].
    + rewrite <- IH. reflexivity.
    + rewrite concat_cons, app_cons, <- concat_cons, IH. reflexivity.
Qed.

Lemma concat_app l1 l2 : concat (l1 ++ l2) = concat l1 +:+ concat l2.
Proof.
  induction l1 as [|a l1 IH]; [done|].
  by rewrite <- app_comm_cons, !concat_cons, IH, app_assoc_s.
Qed.

End strings.

(** ** The loop *)

Section loop.
Implicit Types (line content : string) (lines : list string).

Lemma fragment_fields line :
  fragment line
  = match fields line with
    | f0 :: _ :: f2 :: _ => Ok (record f0 f2)
    | _ => Raise IndexError
    end.
Proof.
  unfold fragment, loop_body, fields, getitem, record.
  destruct (split comma (replace nl EmptyString line)) as [|f0 [|f1 [|f2 rest]]]; try done.
  simpl. unfold mret, result_ret. f_equal.
  by rewrite app_empty_l, !app_assoc_s.
Qed.

Lemma fragment_well_formed line :
  fragment line
  = if decide (well_formed line) then Ok (fasta_record line) else Raise IndexError.
Proof.
  rewrite fragment_fields. unfold fasta_record.
  destruct (decide (well_formed line)) as [H|H]; unfold well_formed in H;
    destruct (fields line) as [|f0 [|f1 [|f2 rest]]]; simpl in *;
    try done; lia.
Qed.

(** The accumulator only grows at its end. *)
Lemma loop_body_fragment content line :
  loop_body content line
  = match fragment line with
    | Ok frag => Ok (content +:+ frag)
    | Raise e => Raise e
    end.
Proof.
  unfold fragment, loop_body, getitem.
  destruct (split comma (replace nl EmptyString line)) as [|f0 [|f1 [|f2 rest]]]; try done.
Qed.

Lemma for_loop_well_formed lines content :
  for_loop lines content
  = if decide (Forall well_formed lines)
    then Ok (content +:+ concat (fasta_record <$> lines))
    else Raise IndexError.
Proof.
  revert content. induction lines as [|line lines IH]; intros content.
  - destruct (decide (Forall well_formed [])) as [_|H].
    + cbn. by rewrite app_empty_r.
    + destruct H. constructor.
  - change (for_loop (line :: lines) content)
      with (loop_body content line ≫= for_loop lines).
    rewrite loop_body_fragment, fragment_well_formed.
    destruct (decide (well_formed line)) as [Hl|Hl].
    + change (for_loop lines (content +:+ fasta_record line)
              = if decide (Forall well_formed (line :: lines))
                then Ok (content +:+ concat (fasta_record <$> line :: lines))
                else Raise IndexError).
      rewrite IH.
      destruct (decide (Forall well_formed lines)) as [Hls|Hls];
        destruct (decide (Forall well_formed (line :: lines))) as [H|H].
      * by rewrite fmap_cons, concat_cons, app_assoc_s.
      * destruct H. by constructor.
      * by apply Forall_cons in H as [_ ?].
      * done.
    + destruct (decide (Forall well_formed (line :: lines))) as [H|H]; [|done].
      by apply Forall_cons in H as [? _].
Qed.

(** A record is two newline-terminated lines without inner newline. *)
Lemma fasta_record_lines line :
  fasta_record line = header_line line +:+ sequence_line line.
Proof.
  unfold fasta_record, record, header_line, sequence_line.
  by rewrite !app_assoc_s.
Qed.

Lemma fields_nl_free line fld : fld ∈ fields line → nl ∉ chars fld.
Proof.
  intros Hf Hc. eapply (replace_empty_free nl line), split_sub; done.
Qed.

Lemma field_default_nl_free line i : nl ∉ chars (default EmptyString (fields line !! i)).
Proof.
  destruct (fields line !! i) as [fld|] eqn:E; simpl.
  - eapply fields_nl_free, list_elem_of_lookup_2, E.
  - apply not_elem_of_nil.
Qed.

Lemma readlines_fasta_record line t :
  readlines (fasta_record line +:+ t)
  = header_line line :: sequence_line line :: readlines t.
Proof.
  unfold fasta_record, record, header_line, sequence_line.
  pose proof (field_default_nl_free line 0) as H0.
  pose proof (field_default_nl_free line 2) as H2.
  set (f0 := default EmptyString (fields line !! 0)) in *.
  set (f2 := default EmptyString (fields line !! 2)) in *.
  rewrite !app_assoc_s, <- (app_assoc_s ">" f0).
  rewrite readlines_line.
  - rewrite readlines_line; [by rewrite app_assoc_s|].
    by intros H%replace_empty_sub.
  - rewrite chars_app. apply not_elem_of_app. split; [|done].
    apply not_elem_of_cons. split; [discriminate | apply not_elem_of_nil].
Qed.

(** The lines of the accumulated text: header and sequence of every
    input line, in the order of the input. *)
Lemma readlines_records lines :
  readlines (concat (fasta_record <$> lines))
  = lines ≫= λ line, [header_line line; sequence_line line].
Proof.
  induction lines as [|line lines IH]; [done|].
  rewrite fmap_cons, concat_cons, readlines_fasta_record, IH. done.
Qed.

End loop.

(** ** The three ways through the script *)

Section main.
Implicit Types (w : world) (argv : list string) (prog path text : string).

Lemma can_read_Some w path text :
  can_read w path = Some text
  ↔ ∃ fl, fs w !! path = Some fl ∧ readable fl = true ∧ data fl = text.
Proof.
  unfold can_read. split.
  - destruct (fs w !! path) as [fl|]; [|done].
    destruct (readable fl) eqn:E; [|done]. intros [= <-]. by exists fl.
  - intros (fl & -> & -> & <-). done.
Qed.

Lemma can_read_None w path :
  can_read w path = None
  ↔ fs w !! path = None ∨ ∃ fl, fs w !! path = Some fl ∧ readable fl = false.
Proof.
  unfold can_read. split.
  - destruct (fs w !! path) as [fl|]; [|by left].
    destruct (readable fl) eqn:E; [done|]. right. by exists fl.
  - intros [->|(fl & -> & ->)]; done.
Qed.

(** *** Running a sequence of statements *)

Lemma bind_Ok {A B : Type} (m : M A) (f : A → M B) w a w' :
  m w = (Ok a, w') → (m ≫= f) w = f a w'.
Proof. intros H. unfold mbind, M_bind. by rewrite H. Qed.

Lemma bind_Raise {A B : Type} (m : M A) (f : A → M B) w e w' :
  m w = (Raise e, w') → (m ≫= f) w = (Raise e, w').
Proof. intros H. unfold mbind, M_bind. by rewrite H. Qed.

(** *** The built-ins *)

Lemma open_read_ok w path text :
  can_read w path = Some text →
  open path ModeR w = (Ok path, log (EvOpen path ModeR) w).
Proof.
  intros (fl & Hfs & Hfl & _)%can_read_Some. unfold open.
  change (fs (log (EvOpen path ModeR) w)) with (fs w).
  by rewrite Hfs, Hfl.
Qed.

Lemma open_read_fail w path :
  can_read w path = None →
  open path ModeR w = (Raise (IOError path), log (EvOpen path ModeR) w).
Proof.
  intros Hr%can_read_None. unfold open.
  change (fs (log (EvOpen path ModeR) w)) with (fs w).
  destruct Hr as [->|(fl & -> & ->)]; done.
Qed.

Lemma tuple_ok w path text :
  can_read w path = Some text →
  tuple path w = (Ok (readlines text), log (EvRead path) w).
Proof.
  intros (fl & Hfs & _ & <-)%can_read_Some. unfold tuple. by rewrite Hfs.
Qed.

Lemma can_write_log w e path : can_write (log e w) path = can_write w path.
Proof. reflexivity. Qed.

Lemma open_write_fail w path :
  can_write w path = false →
  open path ModeW w = (Raise (IOError path), log (EvOpen path ModeW) w).
Proof.
  unfold can_write, open. intros Hw.
  change (fs (log (EvOpen path ModeW) w)) with (fs w).
  change (cwd_writable (log (EvOpen path ModeW) w)) with (cwd_writable w).
  destruct (fs w !! path) as [fl|]; by rewrite Hw.
Qed.

(** Opening the output, writing and closing, followed by [k]. *)
Lemma write_after_open {A : Type} (k : M A) w text :
  can_write w output_name = true →
  (f ← open output_name ModeW; write f text;; close f;; k) w
  = k (World (<[output_name := written w output_name text]> (fs w))
             (stdout w) (stderr w)
             (io_log w ++ [EvOpen output_name ModeW;
                           EvWrite output_name text;
                           EvClose output_name])
             (cwd_writable w)).
Proof.
  unfold can_write, written. intros Hw.
  unfold mbind, M_bind, open, write, close, log, set_fs.
  cbn [fs stdout stderr io_log cwd_writable].
  destruct (fs w !! output_name) as [fl|]; rewrite Hw;
    cbn [fs stdout stderr io_log cwd_writable];
    rewrite lookup_insert_eq; cbn [readable writable data];
    rewrite insert_insert_eq, app_empty_l;
    cbn [fs stdout stderr io_log cwd_writable];
    by rewrite <- !app_assoc.
Qed.

(** *** The script, path by path *)

(** Wrong number of arguments: three lines on standard output, nothing
    else. *)
Lemma main_usage argv w :
  length argv ≠ 2 →
  main argv w
  = (Ok (), World (fs w)
                  (((stdout w +:+ (usage1 +:+ chr nl)) +:+ (usage2 +:+ chr nl))
                   +:+ (usage3 +:+ chr nl))
                  (stderr w) (io_log w) (cwd_writable w)).
Proof.
  intros Hlen. unfold main.
  destruct (Nat.eqb_spec (length argv) 2) as [?|_]; [done|].
  reflexivity.
Qed.

(** The input cannot be opened: [open] raises, nothing is written. *)
Lemma main_unreadable prog path w :
  can_read w path = None →
  main [prog; path] w
  = (Raise (IOError path),
     World (fs w) (stdout w) (stderr w) (io_log w ++ [EvOpen path ModeR])
           (cwd_writable w)).
Proof.
  intros Hr. unfold main. cbn [length Nat.eqb negb].
  erewrite bind_Ok by reflexivity.
  erewrite bind_Raise by (by apply open_read_fail).
  done.
Qed.

(** Some line has fewer than three fields: the loop raises, nothing is
    written. *)
Lemma main_malformed prog path text w :
  can_read w path = Some text →
  ¬ Forall well_formed (readlines text) →
  main [prog; path] w
  = (Raise IndexError,
     World (fs w) (stdout w) (stderr w)
           (io_log w ++ [EvOpen path ModeR; EvRead path])
           (cwd_writable w)).
Proof.
  intros Hr Hwf. unfold main. cbn [length Nat.eqb negb].
  erewrite bind_Ok by reflexivity.
  erewrite bind_Ok by (by eapply open_read_ok).
  erewrite bind_Ok by (eapply tuple_ok; exact Hr).
  erewrite bind_Raise.
  2: { unfold lift. by rewrite for_loop_well_formed, decide_False. }
  unfold log. cbn [fs stdout stderr io_log]. by rewrite <- app_assoc.
Qed.

(** Every line is well formed but the output cannot be opened for
    writing: the second [open] raises, nothing is written. *)
Lemma main_unwritable prog path text w :
  can_read w path = Some text →
  Forall well_formed (readlines text) →
  can_write w output_name = false →
  main [prog; path] w
  = (Raise (IOError output_name),
     World (fs w) (stdout w) (stderr w)
           (io_log w ++ [EvOpen path ModeR; EvRead path;
                         EvOpen output_name ModeW])
           (cwd_writable w)).
Proof.
  intros Hr Hwf Hw. unfold main. cbn [length Nat.eqb negb].
  erewrite bind_Ok by reflexivity.
  erewrite bind_Ok by (by eapply open_read_ok).
  erewrite bind_Ok by (eapply tuple_ok; exact Hr).
  erewrite bind_Ok.
  2: { unfold lift. by rewrite for_loop_well_formed, decide_True, app_empty_l. }
  erewrite bind_Raise by (apply open_write_fail; exact Hw).
  unfold log. cbn [fs stdout stderr io_log cwd_writable].
  by rewrite <- !app_assoc.
Qed.

(** Every line is well formed and the output can be opened for writing:
    the records are written over whatever the output file held. *)
Lemma main_converted prog path text w :
  can_read w path = Some text →
  Forall well_formed (readlines text) →
  can_write w output_name = true →
  main [prog; path] w
  = (Ok (),
     World (<[output_name :=
                written w output_name (concat (fasta_record <$> readlines text))]>
              (fs w))
           (stdout w +:+ (done_message +:+ chr nl))
           (stderr w)
           (io_log w ++ [EvOpen path ModeR; EvRead path;
                         EvOpen output_name ModeW;
                         EvWrite output_name
                                 (concat (fasta_record <$> readlines text));
                         EvClose output_name])
           (cwd_writable w)).
Proof.
  intros Hr Hwf Hw. unfold main. cbn [length Nat.eqb negb].
  erewrite bind_Ok by reflexivity.
  erewrite bind_Ok by (by eapply open_read_ok).
  erewrite bind_Ok by (eapply tuple_ok; exact Hr).
  erewrite bind_Ok.
  2: { unfold lift. by rewrite for_loop_well_formed, decide_True, app_empty_l. }
  rewrite write_after_open by exact Hw. unfold print, put_stdout, log, written.
  cbn [fs stdout stderr io_log cwd_writable]. by rewrite <- !app_assoc.
Qed.

End main.

(** ** Runs *)

Section runs.
Implicit Types (w : world) (argv : list string) (prog path text : string).

Lemma run_usage argv w :
  length argv ≠ 2 →
  run argv w
  = (World (fs w)
           (((stdout w +:+ (usage1 +:+ chr nl)) +:+ (usage2 +:+ chr nl))
            +:+ (usage3 +:+ chr nl))
           (stderr w) (io_log w) (cwd_writable w), 0%Z).
Proof. intros H. unfold run. by rewrite main_usage. Qed.

Lemma run_unreadable prog path w :
  can_read w path = None →
  run [prog; path] w
  = (World (fs w) (stdout w) (stderr w +:+ traceback (IOError path))
           (io_log w ++ [EvOpen path ModeR]) (cwd_writable w), 1%Z).
Proof. intros H. unfold run. by rewrite main_unreadable. Qed.

Lemma run_malformed prog path text w :
  can_read w path = Some text →
  ¬ Forall well_formed (readlines text) →
  run [prog; path] w
  = (World (fs w) (stdout w) (stderr w +:+ traceback IndexError)
           (io_log w ++ [EvOpen path ModeR; EvRead path])
           (cwd_writable w), 1%Z).
Proof. intros H1 H2. unfold run. by erewrite main_malformed. Qed.

Lemma run_unwritable prog path text w :
  can_read w path = Some text →
  Forall well_formed (readlines text) →
  can_write w output_name = false →
  run [prog; path] w
  = (World (fs w) (stdout w) (stderr w +:+ traceback (IOError output_name))
           (io_log w ++ [EvOpen path ModeR; EvRead path;
                         EvOpen output_name ModeW])
           (cwd_writable w), 1%Z).
Proof. intros H1 H2 H3. unfold run. by erewrite main_unwritable. Qed.

Lemma run_converted prog path text w :
  can_read w path = Some text →
  Forall well_formed (readlines text) →
  can_write w output_name = true →
  run [prog; path] w
  = (World (<[output_name :=
                written w output_name (concat (fasta_record <$> readlines text))]>
              (fs w))
           (stdout w +:+ (done_message +:+ chr nl))
           (stderr w)
           (io_log w ++ [EvOpen path ModeR; EvRead path;
                         EvOpen output_name ModeW;
                         EvWrite output_name
                                 (concat (fasta_record <$> readlines text));
                         EvClose output_name])
           (cwd_writable w), 0%Z).
Proof. intros H1 H2 H3. unfold run. by erewrite main_converted. Qed.

Lemma stored_converted (g : gmap string file) w text so se l cw :
  stored (World (<[output_name := written w output_name text]> g) so se l cw)
         output_name
  = Some text.
Proof. unfold stored. cbn [fs]. by rewrite lookup_insert_eq. Qed.

(** The four ways a run on one argument can go. *)
Lemma run_cases prog path w :
  can_read w path = None
  ∨ (∃ text, can_read w path = Some text
             ∧ ¬ Forall well_formed (readlines text))
  ∨ (∃ text, can_read w path = Some text
             ∧ Forall well_formed (readlines text)
             ∧ can_write w output_name = false)
  ∨ (∃ text, can_read w path = Some text
             ∧ Forall well_formed (readlines text)
             ∧ can_write w output_name = true).
Proof.
  destruct (can_read w path) as [text|]; [|by left]. right.
  destruct (decide (Forall well_formed (readlines text))) as [Hwf|Hwf];
    [|left; by exists text]. right.
  destruct (can_write w output_name) eqn:Hw; [right | left]; by exists text.
Qed.

(** A line is short exactly when it is not well formed. *)
Lemma short_line_iff (lines : list string) :
  Exists (λ line, length (fields line) < 3) lines
  ↔ ¬ Forall well_formed lines.
Proof.
  split.
  - intros Hex Hall. apply Exists_exists in Hex as (line & Hin & Hlt).
    eapply Forall_forall in Hall; [|done]. unfold well_formed in Hall. lia.
  - intros Hn. apply not_Forall_Exists in Hn; [|apply _].
    eapply Exists_impl; [done|]. unfold well_formed. simpl. lia.
Qed.

(** The fragments of well-formed lines are their records. *)
Lemma fragments_records (lines : list string) :
  Forall well_formed lines →
  Forall2 (λ line frag, fragment line = Ok frag) lines (fasta_record <$> lines).
Proof.
  induction 1 as [|line lines Hl _ IH]; [constructor|].
  rewrite fmap_cons. constructor; [|done].
  by rewrite fragment_well_formed, decide_True.
Qed.

End runs.

(** ** The per-line transformation *)

(** C1. For the line [EI,HUMAN,AG CCG TGA] the loop body produces the
    fragment [>EI], newline, [AGCCGTGA], newline.  In general the header
    is field 0 as it stands after [>], and the sequence is field 2 with
    its space characters, and no other character, taken out. *)
Theorem C1_field_extraction :
  fragment "EI,HUMAN,AG CCG TGA"
  = Ok (">EI" +:+ chr nl +:+ "AGCCGTGA" +:+ chr nl)
  ∧ fields "EI,HUMAN,AG CCG TGA" = ["EI"; "HUMAN"; "AG CCG TGA"]
  ∧ (∀ line : string,
       fragment line
       = match fields line with
         | f0 :: _ :: f2 :: _ =>
             Ok (">" +:+ f0 +:+ chr nl +:+ replace space EmptyString f2 +:+ chr nl)
         | _ => Raise IndexError
         end)
  ∧ (∀ f2 : string,
       chars (replace space EmptyString f2) = filter (λ c, c ≠ space) (chars f2)).
Proof.
  split; [reflexivity|]. split; [reflexivity|]. split.
  - apply fragment_fields.
  - apply chars_replace_empty.
Qed.

(** C8. Two lines with the same field 0 and the same field 2 give the
    same fragment, and move the accumulator in the same way: field 1
    and the fields after the third play no part. *)
Theorem C8_other_fields_ignored (line1 line2 : string) :
  fields line1 !! 0 = fields line2 !! 0 →
  fields line1 !! 2 = fields line2 !! 2 →
  fragment line1 = fragment line2
  ∧ ∀ content : string, loop_body content line1 = loop_body content line2.
Proof.
  intros H0 H2.
  assert (fragment line1 = fragment line2) as Hfrag.
  { rewrite !fragment_fields.
    destruct (fields line1) as [|a0 [|a1 [|a2 ra]]],
             (fields line2) as [|b0 [|b1 [|b2 rb]]];
      simpl in *; congruence. }
  split; [done|]. intros content. by rewrite !loop_body_fragment, Hfrag.
Qed.

Lemma C8_witness :
  fields "EI,HUMAN,AG CCG" !! 0 = fields "EI,APE,AG CCG,extra,more" !! 0
  ∧ fields "EI,HUMAN,AG CCG" !! 2 = fields "EI,APE,AG CCG,extra,more" !! 2
  ∧ fragment "EI,HUMAN,AG CCG" = fragment "EI,APE,AG CCG,extra,more".
Proof.
  split; [reflexivity|]. split; [reflexivity|].
  apply (C8_other_fields_ignored "EI,HUMAN,AG CCG" "EI,APE,AG CCG,extra,more");
    reflexivity.
Defined.

(** ** Whole runs *)

(** C2. When every line of the input has at least three fields and
    the output can be opened for writing, the run succeeds and the
    output file holds one record per input line, in the order of the
    input: cut into lines, the output is the header line and the
    sequence line of the first input line, then those of the second,
    and so on, with nothing in between, [2 * N] lines for [N] input
    lines. *)
Theorem C2_records_in_order (prog path text : string) (w : world) :
  can_read w path = Some text →
  Forall well_formed (readlines text) →
  can_write w output_name = true →
  status [prog; path] w = 0%Z
  ∧ ∃ out : string,
      stored (after [prog; path] w) output_name = Some out
      ∧ out = concat (fasta_record <$> readlines text)
      ∧ readlines out
        = (readlines text ≫= λ line, [header_line line; sequence_line line])
      ∧ length (readlines out) = 2 * length (readlines text).
Proof.
  intros Hr Hwf Hw. unfold status, after.
  rewrite (run_converted _ _ _ _ Hr Hwf Hw).
  split; [done|]. eexists. split; [apply stored_converted|].
  split; [done|]. rewrite readlines_records. split; [done|].
  generalize (readlines text). intros lines.
  induction lines as [|line lines IH]; [done|].
  rewrite bind_cons, length_app, IH. simpl. lia.
Qed.

Lemma C2_witness :
  can_read sample_world "splice.data.txt" = Some sample_text
  ∧ Forall well_formed (readlines sample_text)
  ∧ can_write sample_world output_name = true
  ∧ status [script; "splice.data.txt"] sample_world = 0%Z.
Proof.
  assert (Forall well_formed (readlines sample_text)) as Hwf.
  { repeat constructor; vm_compute; lia. }
  split; [reflexivity|]. split; [exact Hwf|]. split; [reflexivity|].
  apply (C2_records_in_order script "splice.data.txt" sample_text sample_world);
    [reflexivity | exact Hwf | reflexivity].
Defined.

(** C3. For a readable input, the run ends with an uncaught
    [IndexError] exactly when some line has fewer than three fields.
    The exception then ends the process: the status is 1, the report
    goes to standard error and the closing message is not printed. *)
Theorem C3_index_error_iff (prog path text : string) (w : world) :
  can_read w path = Some text →
  (uncaught [prog; path] w = Some IndexError
   ↔ Exists (λ line, length (fields line) < 3) (readlines text))
  ∧ (uncaught [prog; path] w = Some IndexError →
     status [prog; path] w = 1%Z
     ∧ stdout (after [prog; path] w) = stdout w
     ∧ stderr (after [prog; path] w) = stderr w +:+ traceback IndexError).
Proof.
  intros Hr. rewrite short_line_iff. unfold uncaught, status, after.
  destruct (decide (Forall well_formed (readlines text))) as [Hwf|Hwf].
  - destruct (can_write w output_name) eqn:Hw.
    + rewrite (main_converted _ _ _ _ Hr Hwf Hw). split; [|done].
      split; [done | by intros []].
    + rewrite (main_unwritable _ _ _ _ Hr Hwf Hw). split; [|done].
      split; [done | by intros []].
  - rewrite (run_malformed _ _ _ _ Hr Hwf), (main_malformed _ _ _ _ Hr Hwf).
    done.
Qed.

Lemma C3_witness :
  can_read sample_world "short.txt" = Some short_text
  ∧ (uncaught [script; "short.txt"] sample_world = Some IndexError
     ↔ Exists (λ line, length (fields line) < 3) (readlines short_text)).
Proof.
  split; [reflexivity|].
  apply (C3_index_error_iff script "short.txt" short_text sample_world).
  reflexivity.
Defined.

(** C4. With an argument count other than one, the run prints the three
    usage lines on standard output, writes nothing on standard error,
    performs no file operation, leaves every file as it was and exits
    with status 0. *)
Theorem C4_usage (argv : list string) (w : world) :
  length argv ≠ 2 →
  status argv w = 0%Z
  ∧ stdout (after argv w)
    = stdout w +:+ usage1 +:+ chr nl +:+ usage2 +:+ chr nl +:+ usage3 +:+ chr nl
  ∧ stderr (after argv w) = stderr w
  ∧ io_log (after argv w) = io_log w
  ∧ fs (after argv w) = fs w.
Proof.
  intros Hlen. unfold status, after. rewrite (run_usage _ _ Hlen).
  cbn [fst snd fs stdout stderr io_log]. by rewrite !app_assoc_s.
Qed.

Lemma C4_witness :
  length [script] ≠ 2
  ∧ status [script] sample_world = 0%Z
  ∧ length [script; "a.txt"; "b.txt"] ≠ 2
  ∧ fs (after [script; "a.txt"; "b.txt"] sample_world) = fs sample_world.
Proof.
  split; [discriminate|]. split.
  - apply (C4_usage [script] sample_world). discriminate.
  - split; [discriminate|].
    apply (C4_usage [script; "a.txt"; "b.txt"] sample_world). discriminate.
Defined.

(** C5. When the path given does not exist, or exists but cannot be
    opened for reading, the run ends with a non-zero status on an
    uncaught I/O error, and no file is created or changed: the only
    file operation is the failed attempt to open the input. *)
Theorem C5_unreadable_input (prog path : string) (w : world) :
  fs w !! path = None ∨ (∃ fl, fs w !! path = Some fl ∧ readable fl = false) →
  status [prog; path] w ≠ 0%Z
  ∧ uncaught [prog; path] w = Some (IOError path)
  ∧ fs (after [prog; path] w) = fs w
  ∧ io_log (after [prog; path] w) = io_log w ++ [EvOpen path ModeR].
Proof.
  intros Hr%can_read_None. unfold status, after, uncaught.
  by rewrite (run_unreadable _ _ _ Hr), (main_unreadable _ _ _ Hr).
Qed.

Lemma C5_witness :
  (fs sample_world !! "missing.txt" = None
   ∨ ∃ fl, fs sample_world !! "missing.txt" = Some fl ∧ readable fl = false)
  ∧ status [script; "missing.txt"] sample_world ≠ 0%Z
  ∧ (fs sample_world !! "secret.txt" = None
     ∨ ∃ fl, fs sample_world !! "secret.txt" = Some fl ∧ readable fl = false)
  ∧ fs (after [script; "secret.txt"] sample_world) = fs sample_world.
Proof.
  split; [left; reflexivity|]. split.
  - apply (C5_unreadable_input script "missing.txt" sample_world).
    left; reflexivity.
  - split; [right; eexists; split; reflexivity|].
    apply (C5_unreadable_input script "secret.txt" sample_world).
    right; eexists; split; reflexivity.
Defined.

(** C6. After a run on one argument that ends with status 0, the file
    [splice.data.fasta] holds the fragments of the input lines, put
    together in the order of the input, and nothing else, whatever the
    file held before. *)
Theorem C6_truncate_and_write (prog path : string) (w : world) :
  status [prog; path] w = 0%Z →
  ∃ (text : string) (frags : list string),
    can_read w path = Some text
    ∧ Forall2 (λ line frag, fragment line = Ok frag) (readlines text) frags
    ∧ stored (after [prog; path] w) output_name = Some (concat frags).
Proof.
  unfold status, after. intros Hst.
  destruct (can_read w path) as [text|] eqn:Hr.
  - destruct (decide (Forall well_formed (readlines text))) as [Hwf|Hwf].
    + destruct (can_write w output_name) eqn:Hw.
      * exists text, (fasta_record <$> readlines text).
        split; [done|]. split; [by apply fragments_records|].
        rewrite (run_converted _ _ _ _ Hr Hwf Hw). apply stored_converted.
      * by rewrite (run_unwritable _ _ _ _ Hr Hwf Hw) in Hst.
    + by rewrite (run_malformed _ _ _ _ Hr Hwf) in Hst.
  - by rewrite (run_unreadable _ _ _ Hr) in Hst.
Qed.

Lemma C6_witness :
  status [script; "splice.data.txt"] sample_world = 0%Z
  ∧ stored sample_world output_name = Some "stale"
  ∧ ∃ (text : string) (frags : list string),
      can_read sample_world "splice.data.txt" = Some text
      ∧ Forall2 (λ line frag, fragment line = Ok frag) (readlines text) frags
      ∧ stored (after [script; "splice.data.txt"] sample_world) output_name
        = Some (concat frags).
Proof.
  split; [reflexivity|]. split; [reflexivity|].
  apply (C6_truncate_and_write script "splice.data.txt" sample_world).
  reflexivity.
Defined.

(** C7. What a run writes depends on the text of the input file and on
    nothing else: two runs that read the same text, in whatever
    environments, under whatever names, with whatever output file
    already there, leave the same text in [splice.data.fasta] when both
    succeed; and they end with the same status when the output can be
    opened for writing in both environments or in neither. *)
Theorem C7_deterministic (prog1 prog2 path1 path2 text : string) (w1 w2 : world) :
  can_read w1 path1 = Some text →
  can_read w2 path2 = Some text →
  (status [prog1; path1] w1 = 0%Z →
   status [prog2; path2] w2 = 0%Z →
   ∃ out : string,
     stored (after [prog1; path1] w1) output_name = Some out
     ∧ stored (after [prog2; path2] w2) output_name = Some out)
  ∧ (can_write w1 output_name = can_write w2 output_name →
     status [prog1; path1] w1 = status [prog2; path2] w2).
Proof.
  intros Hr1 Hr2. unfold status, after.
  destruct (decide (Forall well_formed (readlines text))) as [Hwf|Hwf].
  - destruct (can_write w1 output_name) eqn:Hw1;
      destruct (can_write w2 output_name) eqn:Hw2.
    + rewrite (run_converted _ _ _ _ Hr1 Hwf Hw1),
        (run_converted _ _ _ _ Hr2 Hwf Hw2).
      split; [|done]. intros _ _. eexists. split; apply stored_converted.
    + rewrite (run_converted _ _ _ _ Hr1 Hwf Hw1),
        (run_unwritable _ _ _ _ Hr2 Hwf Hw2).
      split; [intros _ [=] | intros [=]].
    + rewrite (run_unwritable _ _ _ _ Hr1 Hwf Hw1),
        (run_converted _ _ _ _ Hr2 Hwf Hw2).
      split; [intros [=] | intros [=]].
    + rewrite (run_unwritable _ _ _ _ Hr1 Hwf Hw1),
        (run_unwritable _ _ _ _ Hr2 Hwf Hw2).
      split; [intros [=] | done].
  - rewrite (run_malformed _ _ _ _ Hr1 Hwf), (run_malformed _ _ _ _ Hr2 Hwf).
    split; [intros [=] | done].
Qed.

Lemma C7_witness :
  can_read sample_world "splice.data.txt" = Some sample_text
  ∧ can_read (world0 {[ "copy.txt" := text_file sample_text ]}) "copy.txt"
    = Some sample_text
  ∧ (status [script; "splice.data.txt"] sample_world = 0%Z →
     status ["other.py"; "copy.txt"]
            (world0 {[ "copy.txt" := text_file sample_text ]}) = 0%Z →
     ∃ out : string,
       stored (after [script; "splice.data.txt"] sample_world) output_name
       = Some out
       ∧ stored (after ["other.py"; "copy.txt"]
                       (world0 {[ "copy.txt" := text_file sample_text ]}))
                output_name
         = Some out).
Proof.
  split; [reflexivity|]. split; [reflexivity|].
  apply (C7_deterministic script "other.py" "splice.data.txt" "copy.txt"
           sample_text sample_world
           (world0 {[ "copy.txt" := text_file sample_text ]}));
    reflexivity.
Defined.

(** X10. Running the script a second time on an input other than the
    output file leaves the files as the first run left them. *)
Lemma run_twice (prog path text : string) (w : world) :
  path ≠ output_name →
  can_read w path = Some text →
  fs (after [prog; path] (after [prog; path] w)) = fs (after [prog; path] w).
Proof.
  intros Hne Hr. unfold after.
  destruct (decide (Forall well_formed (readlines text))) as [Hwf|Hwf].
  - destruct (can_write w output_name) eqn:Hw.
    + rewrite (run_converted _ _ _ _ Hr Hwf Hw). cbn [fst].
      erewrite run_converted; [| |exact Hwf|].
      * cbn [fst fs]. unfold written. cbn [fs].
        rewrite lookup_insert_eq. cbn [readable].
        by rewrite insert_insert_eq.
      * unfold can_read in *. cbn [fs]. by rewrite lookup_insert_ne.
      * unfold can_write, written. cbn [fs]. by rewrite lookup_insert_eq.
    + rewrite (run_unwritable _ _ _ _ Hr Hwf Hw). cbn [fst].
      by erewrite run_unwritable.
  - rewrite (run_malformed _ _ _ _ Hr Hwf). cbn [fst].
    by erewrite run_malformed.
Qed.

(** C9. When some line of a readable input has fewer than three fields,
    the run ends with a non-zero status and every file is as it was:
    the output file is neither opened nor written, the only file
    operations are opening and reading the input. *)
Theorem C9_no_partial_output (prog path text : string) (w : world) :
  can_read w path = Some text →
  Exists (λ line, length (fields line) < 3) (readlines text) →
  status [prog; path] w ≠ 0%Z
  ∧ fs (after [prog; path] w) = fs w
  ∧ io_log (after [prog; path] w) = io_log w ++ [EvOpen path ModeR; EvRead path]
  ∧ stdout (after [prog; path] w) = stdout w.
Proof.
  intros Hr Hwf%short_line_iff. unfold status, after.
  by rewrite (run_malformed _ _ _ _ Hr Hwf).
Qed.

Lemma C9_witness :
  can_read sample_world "short.txt" = Some short_text
  ∧ Exists (λ line, length (fields line) < 3) (readlines short_text)
  ∧ fs (after [script; "short.txt"] sample_world) = fs sample_world.
Proof.
  assert (Exists (λ line, length (fields line) < 3) (readlines short_text)) as Hex.
  { apply Exists_cons_tl, Exists_cons_hd. vm_compute. lia. }
  split; [reflexivity|]. split; [exact Hex|].
  apply (C9_no_partial_output script "short.txt" short_text sample_world);
    [reflexivity | exact Hex].
Defined.

(** C10. For a readable input with no line at all, when the output can
    be opened for writing, the run succeeds: [splice.data.fasta] is left
    empty, the closing message is printed on standard output, nothing
    goes to standard error, and the status is 0. *)
Theorem C10_empty_input (prog path text : string) (w : world) :
  can_read w path = Some text →
  readlines text = [] →
  can_write w output_name = true →
  status [prog; path] w = 0%Z
  ∧ stored (after [prog; path] w) output_name = Some EmptyString
  ∧ stdout (after [prog; path] w) = stdout w +:+ done_message +:+ chr nl
  ∧ stderr (after [prog; path] w) = stderr w.
Proof.
  intros Hr Hlines Hw. unfold status, after.
  assert (Forall well_formed (readlines text)) as Hwf
    by (rewrite Hlines; constructor).
  rewrite (run_converted _ _ _ _ Hr Hwf Hw), Hlines.
  split; [done|]. split; [apply stored_converted | done].
Qed.

Lemma C10_witness :
  can_read sample_world "empty.txt" = Some EmptyString
  ∧ readlines EmptyString = []
  ∧ can_write sample_world output_name = true
  ∧ status [script; "empty.txt"] sample_world = 0%Z
  ∧ stored (after [script; "empty.txt"] sample_world) output_name
    = Some EmptyString.
Proof.
  split; [reflexivity|]. split; [reflexivity|]. split; [reflexivity|].
  pose proof (C10_empty_input script "empty.txt" EmptyString sample_world
                eq_refl eq_refl eq_refl) as (H1 & H2 & _).
  exact (conj H1 H2).
Defined.

(** * Further properties of the script *)

(** ** Fields and commas *)

Section fields.
Implicit Types (s t line : string) (c x sep : ascii).

Lemma split_length sep s : length (split sep s) = S (occurrences sep s).
Proof.
  unfold occurrences. induction s as [|c s IH]; [done|]. simpl.
  destruct (Ascii.eqb_spec c sep) as [->|Hne].
  - rewrite filter_cons_True by done. simpl. by rewrite IH.
  - rewrite filter_cons_False by done.
    destruct (split sep s) as [|fld flds]; [done|]. by rewrite <- IH.
Qed.

(** Taking the newlines out does not touch the other characters. *)
Lemma occurrences_replace x c s :
  c ≠ x → occurrences c (replace x EmptyString s) = occurrences c s.
Proof.
  intros Hne. unfold occurrences. rewrite chars_replace_empty.
  induction (chars s) as [|a l IH]; [done|].
  destruct (decide (a = x)) as [->|Hax].
  - rewrite (filter_cons_False (λ c0, c0 ≠ x)) by (intros H; by apply H).
    rewrite (filter_cons_False (λ x0, x0 = c)) by (intros ->; by apply Hne).
    done.
  - rewrite (filter_cons_True (λ c0, c0 ≠ x)) by done.
    destruct (decide (a = c)) as [->|Hac].
    + rewrite !(filter_cons_True (λ x0, x0 = c)) by done. simpl. by rewrite IH.
    + rewrite !(filter_cons_False (λ x0, x0 = c)) by done. done.
Qed.

Lemma split_sep_free sep s fld : fld ∈ split sep s → sep ∉ chars fld.
Proof.
  revert fld. induction s as [|a s IH]; simpl; intros fld Hf.
  - apply list_elem_of_singleton in Hf as ->. apply not_elem_of_nil.
  - destruct (Ascii.eqb_spec a sep) as [->|Hne].
    + apply elem_of_cons in Hf as [->|Hf]; [apply not_elem_of_nil | by apply IH].
    + destruct (split sep s) as [|f0 fs0] eqn:E.
      * apply list_elem_of_singleton in Hf as ->. simpl.
        apply not_elem_of_cons. split; [done | apply not_elem_of_nil].
      * apply elem_of_cons in Hf as [->|Hf].
        -- simpl. apply not_elem_of_cons. split; [done|]. apply IH. by left.
        -- apply IH. by right.
Qed.

(** The characters of a string are those of its fields and one separator
    between two fields. *)
Lemma split_total_length sep s :
  sum_list (S ∘ String.length <$> split sep s) = S (String.length s).
Proof.
  induction s as [|a s IH]; [done|]. simpl.
  destruct (Ascii.eqb a sep).
  - rewrite fmap_cons. simpl. by rewrite IH.
  - destruct (split sep s) as [|f0 fs0]; [done|].
    rewrite fmap_cons in *. simpl in *. by rewrite IH.
Qed.

Lemma fields_length line : length (fields line) = S (occurrences comma line).
Proof.
  unfold fields. rewrite split_length. f_equal. by apply occurrences_replace.
Qed.

Lemma occurrences_free c s : c ∉ chars s → occurrences c s = 0.
Proof.
  unfold occurrences. induction (chars s) as [|a l IH]; [done|].
  intros [Hne Hl]%not_elem_of_cons.
  rewrite filter_cons_False by (intros ->; by apply Hne). by apply IH.
Qed.

End fields.

(** X1. A line has one field more than it has commas, so the loop body
    accepts a line exactly when the line holds at least two commas. *)
Theorem field_count_commas (line : string) :
  length (fields line) = S (occurrences comma line)
  ∧ (well_formed line ↔ 2 ≤ occurrences comma line)
  ∧ (fragment line = Raise IndexError ↔ occurrences comma line < 2).
Proof.
  pose proof (fields_length line) as Hlen.
  split; [done|]. split.
  - unfold well_formed. rewrite Hlen. lia.
  - rewrite fragment_well_formed.
    destruct (decide (well_formed line)) as [H|H];
      unfold well_formed in H; rewrite Hlen in H; split; intros; (done || lia).
Qed.

(** ** Every run, whatever the arguments *)

Lemma argv_two (argv : list string) :
  length argv = 2 → ∃ prog path : string, argv = [prog; path].
Proof. destruct argv as [|prog [|path [|]]]; try done. by exists prog, path. Qed.

(** X2. The only path a run opens for writing or writes to is
    [splice.data.fasta], as the script names it: every file operation a
    run adds to the log is either on that path, or is an open for
    reading or a read on the path given as the argument.  This holds
    whatever the arguments and however the run ends. *)
Theorem writes_only_to_output (argv : list string) (w : world) :
  ∃ evs : list io_event,
    io_log (after argv w) = io_log w ++ evs
    ∧ Forall (λ e, is_write e = true → event_path e = output_name) evs
    ∧ Forall (λ e, event_path e = output_name
                   ∨ (is_write e = false ∧ argv !! 1 = Some (event_path e)))
             evs.
Proof.
  unfold after.
  destruct (decide (length argv = 2)) as [(prog & path & ->)%argv_two|Hlen].
  - destruct (run_cases prog path w)
      as [Hr|[(text & Hr & Hwf)|[(text & Hr & Hwf & Hw)|(text & Hr & Hwf & Hw)]]].
    + rewrite (run_unreadable _ _ _ Hr). eexists. split; [reflexivity|].
      split; repeat constructor; (done || by right).
    + rewrite (run_malformed _ _ _ _ Hr Hwf). eexists. split; [reflexivity|].
      split; repeat constructor; (done || by right).
    + rewrite (run_unwritable _ _ _ _ Hr Hwf Hw). eexists.
      split; [reflexivity|].
      split; repeat constructor; (done || (by right) || by left).
    + rewrite (run_converted _ _ _ _ Hr Hwf Hw). eexists.
      split; [reflexivity|].
      split; repeat constructor; (done || (by right) || by left).
  - rewrite (run_usage _ _ Hlen). exists []. split; [|by split].
    cbn [fst io_log]. by rewrite app_nil_r.
Qed.

(** X3. A run that ends with a non-zero status was given exactly one
    argument, has left every file as it was and has printed nothing on
    standard output: the script writes its output only at the very end
    of a run that succeeds. *)
Theorem failed_run_changes_nothing (argv : list string) (w : world) :
  status argv w ≠ 0%Z →
  length argv = 2
  ∧ status argv w = 1%Z
  ∧ fs (after argv w) = fs w
  ∧ stdout (after argv w) = stdout w.
Proof.
  unfold status, after.
  destruct (decide (length argv = 2)) as [Hlen|Hlen].
  - destruct (argv_two _ Hlen) as (prog & path & ->).
    destruct (run_cases prog path w)
      as [Hr|[(text & Hr & Hwf)|[(text & Hr & Hwf & Hw)|(text & Hr & Hwf & Hw)]]].
    + by rewrite (run_unreadable _ _ _ Hr).
    + by rewrite (run_malformed _ _ _ _ Hr Hwf).
    + by rewrite (run_unwritable _ _ _ _ Hr Hwf Hw).
    + by rewrite (run_converted _ _ _ _ Hr Hwf Hw).
  - by rewrite (run_usage _ _ Hlen).
Qed.

Lemma failed_run_changes_nothing_witness :
  status [script; "short.txt"] sample_world ≠ 0%Z
  ∧ fs (after [script; "short.txt"] sample_world) = fs sample_world.
Proof.
  split; [discriminate|].
  apply (failed_run_changes_nothing [script; "short.txt"] sample_world).
  discriminate.
Defined.

(** ** Cutting the input into lines *)

Section lines.
Implicit Types (s t u text content : string) (c : ascii) (lines : list string).

(** A text that ends a line can be cut independently of what follows. *)
Lemma readlines_app t u :
  readlines ((t +:+ chr nl) +:+ u) = readlines (t +:+ chr nl) ++ readlines u.
Proof.
  induction t as [|c t IH].
  - rewrite !app_empty_l. reflexivity.
  - rewrite !app_cons. simpl. destruct (Ascii.eqb c nl).
    + by rewrite IH.
    + rewrite IH. destruct (readlines (t +:+ chr nl)) as [|l ls] eqn:E; [|done].
      apply readlines_empty in E. by destruct t.
Qed.

Lemma for_loop_app lines1 lines2 content :
  for_loop (lines1 ++ lines2) content
  = for_loop lines1 content ≫= for_loop lines2.
Proof.
  revert content. induction lines1 as [|line lines1 IH]; intros content; [done|].
  rewrite <- app_comm_cons.
  change (for_loop (line :: ?l) content)
    with (loop_body content line ≫= for_loop l).
  destruct (loop_body content line) as [content'|e]; [apply IH | done].
Qed.

(** The loop body sees a line only through the line without its
    newlines. *)
Lemma for_loop_stripped lines1 lines2 content :
  replace nl EmptyString <$> lines1 = replace nl EmptyString <$> lines2 →
  for_loop lines1 content = for_loop lines2 content.
Proof.
  revert lines2 content.
  induction lines1 as [|l1 lines1 IH]; intros [|l2 lines2] content Heq;
    try done.
  rewrite !fmap_cons in Heq. injection Heq as Hl Hls.
  change (loop_body content l1 ≫= for_loop lines1
          = loop_body content l2 ≫= for_loop lines2).
  assert (loop_body content l1 = loop_body content l2) as ->.
  { unfold loop_body. by rewrite Hl. }
  destruct (loop_body content l2) as [content'|e]; [by apply IH | done].
Qed.

Lemma readlines_final_newline t c :
  c ≠ nl →
  replace nl EmptyString <$> readlines ((t +:+ chr c) +:+ chr nl)
  = replace nl EmptyString <$> readlines (t +:+ chr c).
Proof.
  intros Hc. apply eqb_false_ne in Hc as Hcb.
  induction t as [|a t IH].
  - rewrite !app_empty_l. unfold chr. rewrite app_cons. simpl.
    rewrite Hcb. simpl. rewrite Hcb. done.
  - rewrite !app_cons. simpl. destruct (Ascii.eqb a nl) eqn:Ha.
    + by rewrite !fmap_cons, IH.
    + destruct (readlines ((t +:+ chr c) +:+ chr nl)) as [|l1 ls1] eqn:E1.
      { apply readlines_empty in E1. by destruct t. }
      destruct (readlines (t +:+ chr c)) as [|l2 ls2] eqn:E2.
      { apply readlines_empty in E2. by destruct t. }
      rewrite !fmap_cons in *. injection IH as Hl Hls. simpl.
      rewrite Ha. by rewrite Hl, Hls.
Qed.

End lines.

(** X4. Conversion goes line block by line block: on a text made of a
    part that ends with a newline and a second part, the loop does what
    it does on the first part and then, from the text accumulated so
    far, what it does on the second; an exception in the first part is
    the exception of the whole. *)
Theorem loop_of_concatenated_texts (t u content : string) :
  for_loop (readlines ((t +:+ chr nl) +:+ u)) content
  = for_loop (readlines (t +:+ chr nl)) content ≫= for_loop (readlines u).
Proof. by rewrite readlines_app, for_loop_app. Qed.

(** X5. A newline added after a last line that has none changes nothing:
    the loop gives the same result, text or exception, on both texts. *)
Theorem final_newline_optional (t content : string) (c : ascii) :
  c ≠ nl →
  for_loop (readlines ((t +:+ chr c) +:+ chr nl)) content
  = for_loop (readlines (t +:+ chr c)) content.
Proof. intros Hc. by apply for_loop_stripped, readlines_final_newline. Qed.

Lemma final_newline_optional_witness :
  "T"%char ≠ nl
  ∧ for_loop (readlines (("N,HUMAN,CAGG" +:+ chr "T") +:+ chr nl)) EmptyString
    = for_loop (readlines ("N,HUMAN,CAGG" +:+ chr "T")) EmptyString.
Proof.
  split; [discriminate|].
  apply (final_newline_optional "N,HUMAN,CAGG" EmptyString "T"). discriminate.
Defined.

(** X6. A blank line is fatal: when the input starts with a newline, or
    has two newlines in a row, the run ends on an uncaught [IndexError]
    with status 1 and no file is created or changed. *)
Theorem blank_line_fails (prog path t u : string) (w : world) :
  can_read w path = Some (chr nl +:+ u)
  ∨ can_read w path = Some ((t +:+ chr nl) +:+ (chr nl +:+ u)) →
  uncaught [prog; path] w = Some IndexError
  ∧ status [prog; path] w = 1%Z
  ∧ fs (after [prog; path] w) = fs w.
Proof.
  assert (¬ well_formed (chr nl)) as Hblank by (vm_compute; lia).
  intros Hr.
  assert (∃ text, can_read w path = Some text
                  ∧ ¬ Forall well_formed (readlines text)) as (text & Ht & Hwf).
  { destruct Hr as [Hr|Hr]; eexists; (split; [exact Hr|]).
    - change (readlines (chr nl +:+ u)) with (chr nl :: readlines u).
      by intros [? _]%Forall_cons.
    - rewrite readlines_app.
      change (readlines (chr nl +:+ u)) with (chr nl :: readlines u).
      intros [_ [? _]%Forall_cons]%Forall_app. done. }
  unfold uncaught, status, after.
  by rewrite (run_malformed _ _ _ _ Ht Hwf), (main_malformed _ _ _ _ Ht Hwf).
Qed.

Lemma blank_line_fails_witness :
  (can_read blank_world "blank.txt" = Some (chr nl +:+ "EI,HUMAN,AG GTG AGT")
   ∨ can_read blank_world "blank.txt"
     = Some (("N,HUMAN,CAGGTAAGT" +:+ chr nl)
             +:+ (chr nl +:+ "EI,HUMAN,AG GTG AGT")))
  ∧ uncaught [script; "blank.txt"] blank_world = Some IndexError.
Proof.
  split; [right; reflexivity|].
  apply (blank_line_fails script "blank.txt" "N,HUMAN,CAGGTAAGT"
           "EI,HUMAN,AG GTG AGT" blank_world).
  right; reflexivity.
Defined.

(** ** The text a successful run writes *)

Section output.
Implicit Types (s t line text out : string) (c x : ascii) (lines : list string)
  (w : world).

(** A conversion run with status 0 has read well-formed lines only and
    has written their records. *)
Lemma run_success_inv prog path text w :
  can_read w path = Some text →
  status [prog; path] w = 0%Z →
  Forall well_formed (readlines text)
  ∧ stored (after [prog; path] w) output_name
    = Some (concat (fasta_record <$> readlines text)).
Proof.
  intros Hr. unfold status, after.
  destruct (decide (Forall well_formed (readlines text))) as [Hwf|Hwf].
  - destruct (can_write w output_name) eqn:Hw.
    + rewrite (run_converted _ _ _ _ Hr Hwf Hw). intros _. split; [done|].
      apply stored_converted.
    + by rewrite (run_unwritable _ _ _ _ Hr Hwf Hw).
  - by rewrite (run_malformed _ _ _ _ Hr Hwf).
Qed.

Lemma length_app_s s t :
  String.length (s +:+ t) = String.length s + String.length t.
Proof. induction s as [|c s IH]; [done|]. rewrite app_cons. simpl. by rewrite IH. Qed.

Lemma length_replace_le x s :
  String.length (replace x EmptyString s) ≤ String.length s.
Proof.
  induction s as [|c s IH]; [done|]. simpl. destruct (Ascii.eqb c x).
  - rewrite app_empty_l. lia.
  - simpl. lia.
Qed.

(** A record is at most one character longer than its line without the
    newline: it drops field 1 and a comma and adds [>] and two
    newlines. *)
Lemma length_fasta_record line :
  well_formed line →
  String.length (fasta_record line)
  ≤ S (String.length (replace nl EmptyString line)).
Proof.
  unfold well_formed, fasta_record, record, fields.
  pose proof (split_total_length comma (replace nl EmptyString line)) as Hsum.
  destruct (split comma (replace nl EmptyString line))
    as [|f0 [|f1 [|f2 rest]]]; simpl; try lia.
  intros _. rewrite !fmap_cons in Hsum. simpl in Hsum.
  rewrite !length_app_s. simpl.
  pose proof (length_replace_le space f2). lia.
Qed.

(** The lines of a text without their newlines, one more character
    counted for each, fit in the text and one character. *)
Lemma stripped_lines_length text :
  sum_list (S ∘ String.length ∘ replace nl EmptyString <$> readlines text)
  ≤ S (String.length text).
Proof.
  induction text as [|c text IH]; [simpl; lia|]. simpl.
  destruct (Ascii.eqb c nl) eqn:Hc.
  - rewrite fmap_cons. simpl. rewrite Hc. rewrite app_empty_l. simpl. lia.
  - destruct (readlines text) as [|l ls] eqn:E.
    + apply readlines_empty in E as ->. simpl. rewrite Hc. simpl. lia.
    + rewrite fmap_cons in *. simpl in *. rewrite Hc. simpl. lia.
Qed.

Lemma length_records lines :
  Forall well_formed lines →
  String.length (concat (fasta_record <$> lines))
  ≤ sum_list (S ∘ String.length ∘ replace nl EmptyString <$> lines).
Proof.
  induction 1 as [|line lines Hl _ IH]; [done|].
  rewrite !fmap_cons, concat_cons, length_app_s.
  pose proof (length_fasta_record line Hl).
  change (sum_list (?x :: ?l)) with (x + sum_list l).
  change ((S ∘ String.length ∘ replace nl EmptyString) line)
    with (S (String.length (replace nl EmptyString line))).
  lia.
Qed.

Lemma chars_concat_free x (l : list string) :
  Forall (λ s, x ∉ chars s) l → x ∉ chars (concat l).
Proof.
  induction 1 as [|s l Hs _ IH]; [apply not_elem_of_nil|].
  rewrite concat_cons, chars_app. by apply not_elem_of_app.
Qed.

Lemma field_default_comma_free line i :
  comma ∉ chars (default EmptyString (fields line !! i)).
Proof.
  destruct (fields line !! i) as [fld|] eqn:E; simpl.
  - eapply split_sep_free, list_elem_of_lookup_2, E.
  - apply not_elem_of_nil.
Qed.

Lemma fasta_record_comma_free line : comma ∉ chars (fasta_record line).
Proof.
  unfold fasta_record, record.
  pose proof (field_default_comma_free line 0) as H0.
  assert (comma ∉ chars (replace space EmptyString
                           (default EmptyString (fields line !! 2)))) as H2.
  { intros H%replace_empty_sub. by eapply field_default_comma_free. }
  rewrite !chars_app. simpl.
  apply not_elem_of_cons; split; [done|].
  apply not_elem_of_app; split; [done|].
  apply not_elem_of_cons; split; [done|].
  apply not_elem_of_app; split; [done|].
  apply not_elem_of_cons; split; [done | apply not_elem_of_nil].
Qed.

Lemma fasta_record_nonempty line : fasta_record line ≠ EmptyString.
Proof. done. Qed.

End output.

(** X7. The output is never more than one character longer than the
    input: after a successful run the text of [splice.data.fasta] has at
    most one character more than the text that was read. *)
Theorem output_length_bound (prog path text : string) (w : world) :
  can_read w path = Some text →
  status [prog; path] w = 0%Z →
  ∃ out : string,
    stored (after [prog; path] w) output_name = Some out
    ∧ String.length out ≤ String.length text + 1.
Proof.
  intros Hr Hst. destruct (run_success_inv _ _ _ _ Hr Hst) as [Hwf Hout].
  eexists. split; [exact Hout|].
  pose proof (length_records _ Hwf). pose proof (stripped_lines_length text).
  lia.
Qed.

Lemma output_length_bound_witness :
  can_read sample_world "splice.data.txt" = Some sample_text
  ∧ status [script; "splice.data.txt"] sample_world = 0%Z
  ∧ ∃ out : string,
      stored (after [script; "splice.data.txt"] sample_world) output_name
      = Some out
      ∧ String.length out ≤ String.length sample_text + 1.
Proof.
  split; [reflexivity|]. split; [reflexivity|].
  apply (output_length_bound script "splice.data.txt" sample_text sample_world);
    reflexivity.
Defined.

(** X8. The output holds no comma: after a successful run no character
    of [splice.data.fasta] is a comma, whatever the input held. *)
Theorem output_has_no_comma (prog path text : string) (w : world) :
  can_read w path = Some text →
  status [prog; path] w = 0%Z →
  ∃ out : string,
    stored (after [prog; path] w) output_name = Some out
    ∧ comma ∉ chars out.
Proof.
  intros Hr Hst. destruct (run_success_inv _ _ _ _ Hr Hst) as [_ Hout].
  eexists. split; [exact Hout|].
  apply chars_concat_free, Forall_fmap, Forall_forall.
  intros line _. apply fasta_record_comma_free.
Qed.

Lemma output_has_no_comma_witness :
  can_read sample_world "splice.data.txt" = Some sample_text
  ∧ status [script; "splice.data.txt"] sample_world = 0%Z
  ∧ ∃ out : string,
      stored (after [script; "splice.data.txt"] sample_world) output_name
      = Some out
      ∧ comma ∉ chars out.
Proof.
  split; [reflexivity|]. split; [reflexivity|].
  apply (output_has_no_comma script "splice.data.txt" sample_text sample_world);
    reflexivity.
Defined.

(** X9. After a successful run the output is empty only if the input
    was: an input with at least one character gives an output with at
    least one. *)
Theorem output_empty_only_for_empty_input (prog path text : string) (w : world) :
  can_read w path = Some text →
  status [prog; path] w = 0%Z →
  (stored (after [prog; path] w) output_name = Some EmptyString
   ↔ text = EmptyString).
Proof.
  intros Hr Hst. destruct (run_success_inv _ _ _ _ Hr Hst) as [_ Hout].
  rewrite Hout. split.
  - intros [= Hcat]. apply readlines_empty.
    destruct (readlines text) as [|line lines]; [done|].
    rewrite fmap_cons, concat_cons in Hcat. discriminate Hcat.
  - by intros ->.
Qed.

Lemma output_empty_only_for_empty_input_witness :
  (can_read sample_world "empty.txt" = Some EmptyString
   ∧ status [script; "empty.txt"] sample_world = 0%Z
   ∧ (stored (after [script; "empty.txt"] sample_world) output_name
      = Some EmptyString
      ↔ EmptyString = EmptyString))
  ∧ (can_read sample_world "splice.data.txt" = Some sample_text
     ∧ status [script; "splice.data.txt"] sample_world = 0%Z
     ∧ (stored (after [script; "splice.data.txt"] sample_world) output_name
        = Some EmptyString
        ↔ sample_text = EmptyString)).
Proof.
  split.
  - split; [reflexivity|]. split; [reflexivity|].
    apply (output_empty_only_for_empty_input script "empty.txt" EmptyString
             sample_world); reflexivity.
  - split; [reflexivity|]. split; [reflexivity|].
    apply (output_empty_only_for_empty_input script "splice.data.txt"
             sample_text sample_world); reflexivity.
Defined.

(** ** Running the script again *)

Lemma run_twice_witness :
  "splice.data.txt" ≠ output_name
  ∧ can_read sample_world "splice.data.txt" = Some sample_text
  ∧ fs (after [script; "splice.data.txt"]
          (after [script; "splice.data.txt"] sample_world))
    = fs (after [script; "splice.data.txt"] sample_world).
Proof.
  split; [discriminate|]. split; [reflexivity|].
  apply (run_twice script "splice.data.txt" sample_text sample_world);
    [discriminate | reflexivity].
Defined.

Lemma header_line_malformed (line : string) : ¬ well_formed (header_line line).
Proof.
  unfold well_formed. rewrite fields_length, occurrences_free; [lia|].
  pose proof (fasta_record_comma_free line) as H.
  rewrite fasta_record_lines, chars_app in H.
  by apply not_elem_of_app in H as [? _].
Qed.

(** X11. The script does not accept its own output: after a successful
    run on an input that is not empty, a run on [splice.data.fasta]
    ends with status 1 and leaves every file, [splice.data.fasta]
    included, as the first run left it. *)
Theorem own_output_rejected (prog path text : string) (w : world) :
  can_read w path = Some text →
  text ≠ EmptyString →
  status [prog; path] w = 0%Z →
  status [prog; output_name] (after [prog; path] w) = 1%Z
  ∧ fs (after [prog; output_name] (after [prog; path] w))
    = fs (after [prog; path] w).
Proof.
  intros Hr Hne Hst. destruct (run_success_inv _ _ _ _ Hr Hst) as [Hwf Hout].
  set (w1 := after [prog; path] w) in *. unfold status, after.
  destruct (can_read w1 output_name) as [out|] eqn:Hr1.
  - assert (out = concat (fasta_record <$> readlines text)) as ->.
    { apply can_read_Some in Hr1 as (fl & Hfl & _ & <-).
      unfold stored in Hout. rewrite Hfl in Hout. by injection Hout. }
    erewrite run_malformed; [done | exact Hr1 |].
    rewrite readlines_records.
    destruct (readlines text) as [|line lines] eqn:E.
    { by apply readlines_empty in E. }
    rewrite bind_cons. intros [?%header_line_malformed _]%Forall_cons. done.
  - by rewrite (run_unreadable _ _ _ Hr1).
Qed.

Lemma own_output_rejected_witness :
  can_read sample_world "splice.data.txt" = Some sample_text
  ∧ sample_text ≠ EmptyString
  ∧ status [script; "splice.data.txt"] sample_world = 0%Z
  ∧ status [script; output_name] (after [script; "splice.data.txt"] sample_world)
    = 1%Z.
Proof.
  split; [reflexivity|]. split; [discriminate|]. split; [reflexivity|].
  apply (own_output_rejected script "splice.data.txt" sample_text sample_world);
    [reflexivity | discriminate | reflexivity].
Defined.
